(** * go-libp2p-raft: the raft transport over libp2p streams (transport.go)

    A shallow embedding of [transport.go]: the hclog-to-go-log bridge
    [hcLogToLogger], the [streamLayer] handed to raft's network transport,
    the [addrProvider] and the factory [NewLibp2pTransport].

    Go values of static type [interface{}] are an inductive type of
    dynamic values; slices are lists; a panic of the Go runtime (index out
    of range, nil dereference) is an explicit [Panic] outcome; pointers to
    bridges are locations of a store; calls to the collaborators (go-log,
    go-libp2p, gostream, raft) are recorded as events. *)

From Stdlib Require Import Ascii.
From Equations Require Import Equations.
From stdpp Require Import gmap strings list pretty.

Set Warnings "-register-all".

(** ** Dynamic values and the [%s] verb of package fmt *)

Module GoValue.

(** The dynamic types that occur as logging arguments: the nil interface,
    [string], [int], [bool], an [error] (given by its [Error()] text) and
    [[]interface{}]. *)
Inductive iface : Type :=
| INil
| IString (s : string)
| IInt (n : Z)
| IBool (b : bool)
| IError (msg : string)
| ISlice (elems : list iface).

(** [v.(string)]: the comma-ok type assertion. *)
Definition assert_string (v : iface) : option string :=
  match v with
  | IString s => Some s
  | _ => None
  end.

Definition pretty_bool (b : bool) : string :=
  if b then "true" else "false".

(** [strings.Join(xs, " ")]. *)
Fixpoint join_space (xs : list string) : string :=
  match xs with
  | [] => ""
  | [x] => x
  | x :: rest => x +:+ " " +:+ join_space rest
  end.

(** [%s] applied to an element of a slice (fmt's printValue at depth > 0):
    a nil element prints as [<nil>], a value without a string form prints
    as a bad-verb marker. *)
Fixpoint fmt_s_elem (v : iface) : string :=
  match v with
  | INil => "<nil>"
  | IString s => s
  | IInt n => "%!s(int=" +:+ pretty n +:+ ")"
  | IBool b => "%!s(bool=" +:+ pretty_bool b +:+ ")"
  | IError msg => msg
  | ISlice elems => "[" +:+ join_space (map fmt_s_elem elems) +:+ "]"
  end.

(** [%s] applied to an operand of Sprintf. *)
Definition fmt_s (v : iface) : string :=
  match v with
  | INil => "%!s(<nil>)"
  | _ => fmt_s_elem v
  end.

End GoValue.
Export GoValue.

(** ** Outcomes: a normal return or a runtime panic *)

Inductive outcome (A : Type) : Type :=
| Ok (a : A)
| Panic (reason : string).
Arguments Ok {A} a.
Arguments Panic {A} reason.

#[global] Instance outcome_ret : MRet outcome := fun A a => Ok a.

#[global] Instance outcome_bind : MBind outcome := fun A B k m =>
  match m with
  | Ok a => k a
  | Panic r => Panic r
  end.

Definition index_out_of_range : string := "index out of range".

(** ** The logging bridge *)

Module LogBridge.

(** [type hcLogToLogger struct { extraArgs []interface{}; name string }] *)
Record hcLogToLogger : Type := mkLogger {
  extraArgs : list iface;
  name : string
}.

(** [fmt.Sprintf(" %s=%s.", key, val)] *)
Definition Sprintf_kv (key : string) (val : iface) : string :=
  " " +:+ fmt_s (IString key) +:+ "=" +:+ fmt_s val +:+ ".".

(** The loop of [formatArgs]:
    [for i := 0; i < len(args); i = i + 2 { ... }], with both indexings
    bounds-checked as the Go runtime does. *)
Equations? formatArgs_loop (args : list iface) (i : nat) (result : string)
  : outcome string by wf (length args - i) lt :=
  formatArgs_loop args i result with decide (i < length args) => {
    | right _ := Ok result;
    | left _ with args !! i => {
        | None := Panic index_out_of_range;
        | Some (IString key) with args !! (i + 1) => {
            | None := Panic index_out_of_range;
            | Some val :=
                formatArgs_loop args (i + 2) (result +:+ Sprintf_kv key val) };
        | Some _ := formatArgs_loop args (i + 2) result } }.
Proof. all: lia. Qed.

(** [args = append(args, log.extraArgs)]: the slice [log.extraArgs] is
    appended as ONE element (there is no spread [...]). The append reads
    [log.extraArgs] and writes at most into spare capacity behind the
    caller's [args]; the fields of the bridge are not written. *)
Definition formatArgs (log : hcLogToLogger) (args : list iface) : outcome string :=
  let result := "" in
  let args := args ++ [ISlice (extraArgs log)] in
  formatArgs_loop args 0 result.

(** [format]: the name prefix, the message and the rendered arguments. *)
Definition format (log : hcLogToLogger) (msg : string) (args : list iface)
  : outcome string :=
  argstr ← formatArgs log args;
  let argstr :=
    if decide (0 < String.length argstr) then ". Args: " +:+ argstr else argstr in
  let name := name log in
  let name := if decide (0 < String.length name) then name +:+ ": " else name in
  mret ((name +:+ msg) +:+ argstr).

(** *** The host logger [raftLogger] (go-log) *)

(** The four levels of the host logger that the bridge calls. *)
Inductive hostLevel : Type := HostDebug | HostInfo | HostWarn | HostError.

#[global] Instance hostLevel_eq_dec : EqDecision hostLevel.
Proof. solve_decision. Defined.

(** What the host logger has been asked to emit, oldest first. *)
Definition sink : Type := list (hostLevel * string).

Definition raftLogger_Debug (text : string) (k : sink) : sink := k ++ [(HostDebug, text)].
Definition raftLogger_Info (text : string) (k : sink) : sink := k ++ [(HostInfo, text)].
Definition raftLogger_Warn (text : string) (k : sink) : sink := k ++ [(HostWarn, text)].
Definition raftLogger_Error (text : string) (k : sink) : sink := k ++ [(HostError, text)].

(** *** The levelled methods; [args] is the variadic parameter *)

Definition Trace (log : hcLogToLogger) (msg : string) (args : list iface) (k : sink)
  : outcome sink :=
  text ← format log msg args; mret (raftLogger_Debug text k).

Definition Debug (log : hcLogToLogger) (msg : string) (args : list iface) (k : sink)
  : outcome sink :=
  text ← format log msg args; mret (raftLogger_Debug text k).

Definition Info (log : hcLogToLogger) (msg : string) (args : list iface) (k : sink)
  : outcome sink :=
  text ← format log msg args; mret (raftLogger_Info text k).

Definition Warn (log : hcLogToLogger) (msg : string) (args : list iface) (k : sink)
  : outcome sink :=
  text ← format log msg args; mret (raftLogger_Warn text k).

Definition Error (log : hcLogToLogger) (msg : string) (args : list iface) (k : sink)
  : outcome sink :=
  text ← format log msg args; mret (raftLogger_Error text k).

(** *** [hclog.Level], an int32 with named constants *)

Abbreviation Level := Z (only parsing).
Definition hclog_NoLevel : Level := 0%Z.
Definition hclog_Trace : Level := 1%Z.
Definition hclog_Debug : Level := 2%Z.
Definition hclog_Info : Level := 3%Z.
Definition hclog_Warn : Level := 4%Z.
Definition hclog_Error : Level := 5%Z.
Definition hclog_Off : Level := 6%Z.

(** [Log]: the switch on the level. Each branch calls a variadic method
    as [log.Debug(msg, args)], without spreading: the callee's variadic
    parameter is the one-element slice holding [args]. *)
Definition Log (log : hcLogToLogger) (level : Level) (msg : string)
    (args : list iface) (k : sink) : outcome sink :=
  if bool_decide (level = hclog_Trace) || bool_decide (level = hclog_Debug) then
    Debug log msg [ISlice args] k
  else if bool_decide (level = hclog_NoLevel) || bool_decide (level = hclog_Info) then
    Info log msg [ISlice args] k
  else if bool_decide (level = hclog_Warn) then
    Warn log msg [ISlice args] k
  else if bool_decide (level = hclog_Error) then
    Error log msg [ISlice args] k
  else
    Warn log msg [ISlice args] k.

Definition IsTrace (log : hcLogToLogger) : bool := true.
Definition IsDebug (log : hcLogToLogger) : bool := true.
Definition IsInfo (log : hcLogToLogger) : bool := true.
Definition IsWarn (log : hcLogToLogger) : bool := true.
Definition IsError (log : hcLogToLogger) : bool := true.

Definition Name (log : hcLogToLogger) : string := name log.

(** *** Derivation: [With], [Named], [ResetNamed]

    A bridge is used through a pointer [*hcLogToLogger]. Pointers are
    locations of a store; [&hcLogToLogger{...}] allocates a location that
    the store does not hold yet. *)

Definition loc : Type := positive.
Abbreviation store := (gmap loc hcLogToLogger).

Definition nil_dereference : string := "nil pointer dereference".

(** [&hcLogToLogger{...}] *)
Definition new_bridge (b : hcLogToLogger) (σ : store) : loc * store :=
  let l := fresh (dom σ) in (l, <[l := b]> σ).

(** [return &hcLogToLogger{extraArgs: args}]; the receiver is not read. *)
Definition With (σ : store) (log : loc) (args : list iface) : loc * store :=
  new_bridge {| extraArgs := args; name := "" |} σ.

(** [return &hcLogToLogger{name: log.name + ": " + name}] *)
Definition Named (σ : store) (log : loc) (suffix : string) : outcome (loc * store) :=
  match σ !! log with
  | None => Panic nil_dereference
  | Some b =>
      Ok (new_bridge {| extraArgs := []; name := (name b +:+ ": ") +:+ suffix |} σ)
  end.

(** [return &hcLogToLogger{name: name}]; the receiver is not read. *)
Definition ResetNamed (σ : store) (log : loc) (new_name : string) : loc * store :=
  new_bridge {| extraArgs := []; name := new_name |} σ.

(** A method with a pointer receiver that reads the bridge: dereference,
    then run the method on the fields. *)
Definition at_bridge {A} (σ : store) (log : loc) (m : hcLogToLogger → outcome A)
  : outcome A :=
  match σ !! log with
  | None => Panic nil_dereference
  | Some b => m b
  end.

End LogBridge.

(** ** The stream layer, the address provider and the factory *)

Module Transport.
Import LogBridge.

(** [const RaftProtocol protocol.ID = "/raft/1.0.0/rpc"] *)
Definition RaftProtocol : string := "/raft/1.0.0/rpc".

(** [raft.ServerID] and [raft.ServerAddress] are both named string types;
    [time.Duration] is an int64 count of nanoseconds. *)
Abbreviation ServerID := string (only parsing).
Abbreviation ServerAddress := string (only parsing).
Abbreviation Duration := Z (only parsing).

(** go-libp2p and gostream at the interface the transport uses. A value
    of [Host] is a live host; the Go interface value [host.Host], which
    may be nil, is an [option Host]. *)
Class Substrate : Type := {
  Host : Type;
  PeerID : Type;
  Conn : Type;
  Listener : Type;
  (** an error value made by a collaborator *)
  lib_error : Type;
  (** [peer.Decode] *)
  peer_Decode : string → PeerID + lib_error;
  (** [peer.ID.String] *)
  peer_Encode : PeerID → string;
  (** [gostream.Listen(h, tag)] on a live host. To register the listener
      it calls a method of [h]; on the nil interface value that call
      panics, which [newStreamLayer] accounts for. *)
  gostream_Listen : Host → string → Listener + lib_error;
  (** [gostream.Dial(ctx, h, pid, tag)], [ctx] carrying the timeout *)
  gostream_Dial : Host → PeerID → string → Duration → Conn + lib_error
}.

Section WithSubstrate.
Context `{Net : Substrate}.

(** Go's [error]: made here with [errors.New], or handed over by a
    collaborator. *)
Inductive error : Type :=
| errors_New (text : string)
| from_lib (e : lib_error).

(** A Go result pair [(T, error)] of which exactly one side is set. *)
Inductive result (A : Type) : Type :=
| Ret (a : A)
| Fail (err : error).
#[global] Arguments Ret {A} a.
#[global] Arguments Fail {A} err.

Definition of_lib {A} (r : A + lib_error) : result A :=
  match r with
  | inl a => Ret a
  | inr e => Fail (from_lib e)
  end.

(** Calls made to the collaborators, in program order. *)
Inductive event : Type :=
| EvListen (h : Host) (tag : string)
| EvDecode (address : string)
| EvOpenStream (h : Host) (pid : PeerID) (tag : string) (timeout : Duration)
| EvCancel.

(** The events that reach the network: opening a stream to a peer. *)
Definition is_network_op (ev : event) : bool :=
  match ev with
  | EvOpenStream _ _ _ _ => true
  | _ => false
  end.

(** [type streamLayer struct { host host.Host; l net.Listener }] *)
Record streamLayer : Type := mkStreamLayer {
  host : option Host;
  l : option Listener
}.

Definition not_initialized : error := errors_New "streamLayer not initialized".

(** [h] goes to [gostream.Listen] unchecked: a nil host panics there, and
    nothing is returned. *)
Definition newStreamLayer (h : option Host)
  : outcome (result streamLayer * list event) :=
  match h with
  | None => Panic nil_dereference
  | Some hst =>
      match gostream_Listen hst RaftProtocol with
      | inr err => Ok (Fail (from_lib err), [EvListen hst RaftProtocol])
      | inl listener =>
          Ok (Ret {| host := h; l := Some listener |}, [EvListen hst RaftProtocol])
      end
  end.

Definition Dial (sl : streamLayer) (address : ServerAddress) (timeout : Duration)
  : result Conn * list event :=
  match host sl with
  | None => (Fail not_initialized, [])
  | Some h =>
      match peer_Decode address with
      | inr err => (Fail (from_lib err), [EvDecode address])
      | inl pid =>
          (of_lib (gostream_Dial h pid RaftProtocol timeout),
           [EvDecode address; EvOpenStream h pid RaftProtocol timeout; EvCancel])
      end
  end.

(** [type addrProvider struct { h host.Host }] *)
Record addrProvider : Type := mkAddrProvider { h : option Host }.

(** [return raft.ServerAddress(id), nil] *)
Definition ServerAddr (ap : addrProvider) (id : ServerID) : result ServerAddress :=
  Ret id.

(** [raft.NetworkTransportConfig], the fields the factory sets. *)
Record NetworkTransportConfig : Type := mkConfig {
  ServerAddressProvider : addrProvider;
  Logger : hcLogToLogger;
  Stream : streamLayer;
  MaxPool : Z;
  Timeout : Duration
}.

Section Factory.
(** [raft.NetworkTransport] and [raft.NewNetworkTransportWithConfig]. *)
Variable NetworkTransport : Type.
Variable raft_NewNetworkTransportWithConfig :
  NetworkTransportConfig → NetworkTransport.

Definition NewLibp2pTransport (h : option Host) (timeout : Duration)
  : outcome (result NetworkTransport * list event) :=
  let provider := {| h := h |} in
  created ← newStreamLayer h;
  match created with
  | (Fail err, evs) => mret (Fail err, evs)
  | (Ret stream, evs) =>
      let cfg := {| ServerAddressProvider := provider;
                    Logger := {| extraArgs := []; name := "" |};
                    Stream := stream;
                    MaxPool := 0;
                    Timeout := timeout |} in
      mret (Ret (raft_NewNetworkTransportWithConfig cfg), evs)
  end.
End Factory.

End WithSubstrate.

(** A small substrate to run the definitions on: peer identities are
    [nat], written in unary with the letter Q ([QQQ] is peer 3, the empty
    text is not an identity); only peer 1 is reachable. *)
Module Sample.

Fixpoint unary (n : nat) : string :=
  match n with
  | O => ""
  | S n' => String "Q"%char (unary n')
  end.

Fixpoint count_unary (s : string) : option nat :=
  match s with
  | EmptyString => Some 0
  | String c rest =>
      if bool_decide (c = "Q"%char) then S <$> count_unary rest else None
  end.

Definition decode (s : string) : nat + string :=
  match count_unary s with
  | Some (S n) => inl (S n)
  | _ => inr "failed to parse peer ID"
  end.

Definition listen (h : unit) (tag : string) : unit + string :=
  if bool_decide (tag = "") then inr "empty protocol" else inl ().

Definition dial (h : unit) (pid : nat) (tag : string) (timeout : Z) : nat + string :=
  if bool_decide (pid = 1) then inl pid else inr "context deadline exceeded".

#[export] Instance sample_net : Substrate := {|
  Host := unit;
  PeerID := nat;
  Conn := nat;
  Listener := unit;
  lib_error := string;
  peer_Decode := decode;
  peer_Encode := unary;
  gostream_Listen := listen;
  gostream_Dial := dial
|}.

Definition live_host : option (@Host sample_net) := Some ().
Definition live_layer : @streamLayer sample_net :=
  {| host := live_host; l := Some () |}.
Definition nil_layer : @streamLayer sample_net :=
  {| host := None; l := None |}.
Definition sample_provider : @addrProvider sample_net := {| h := live_host |}.

End Sample.

End Transport.

(** ** Reference definitions used to state the properties *)

Module Reference.
Import LogBridge.

(** The loop of [formatArgs] read off the remaining arguments
    [args[i:]]: the same bounds checks, by recursion on the list. *)
Fixpoint render_from (rest : list iface) (result : string) : outcome string :=
  match rest with
  | [] => Ok result
  | IString key :: after_key =>
      match after_key with
      | [] => Panic index_out_of_range
      | val :: rest' => render_from rest' (result +:+ Sprintf_kv key val)
      end
  | _ :: after_key =>
      match after_key with
      | [] => Ok result
      | _ :: rest' => render_from rest' result
      end
  end.

(** The rendering the description of [formatArgs] gives for call-site
    arguments: one fragment per key/value pair whose key is a string, in
    order; a pair whose key is not a string is skipped. *)
Fixpoint spec_fragments (args : list iface) : string :=
  match args with
  | k :: v :: rest =>
      match assert_string k with
      | Some key => Sprintf_kv key v +:+ spec_fragments rest
      | None => spec_fragments rest
      end
  | _ => ""
  end.

(** The rendering the description gives for a bridge: the fragments of
    the call-site arguments, then those of the contextual arguments. *)
Definition spec_formatArgs (log : hcLogToLogger) (args : list iface) : string :=
  spec_fragments args +:+ spec_fragments (extraArgs log).

(** The level table of the description: trace and debug to debug, unset
    and info to info, warn to warn, error to error, anything else to warn. *)
Definition spec_host_level (level : Level) : hostLevel :=
  if decide (level ∈ [hclog_Trace; hclog_Debug]) then HostDebug
  else if decide (level ∈ [hclog_NoLevel; hclog_Info]) then HostInfo
  else if decide (level = hclog_Warn) then HostWarn
  else if decide (level = hclog_Error) then HostError
  else HostWarn.

(** The display prefix of a bridge: its name and a separator, or nothing
    for the empty name. *)
Definition name_prefix (log : hcLogToLogger) : string :=
  match name log with
  | EmptyString => ""
  | String _ _ => name log +:+ ": "
  end.

(** What it is for a derivation from the store [σ] to return a freshly
    constructed bridge: the returned pointer is not a bridge of [σ]; the
    new store holds a bridge at it, and holds that one bridge more than
    [σ]; every bridge of [σ], the receiver among them, has the fields it
    had. *)
Definition fresh_derivation (σ : store) (r : loc * store) : Prop :=
  (r.1 ∉ dom σ)
  ∧ is_Some (r.2 !! r.1)
  ∧ dom r.2 = {[r.1]} ∪ dom σ
  ∧ ∀ l, l ∈ dom σ → r.2 !! l = σ !! l.

(** A parent bridge and the store that holds it, to run derivations on. *)
Definition parent_loc : loc := 1%positive.
Definition parent_bridge : hcLogToLogger :=
  {| extraArgs := [IString "node"; IString "n1"]; name := "raft" |}.
Definition parent_store : store := {[ parent_loc := parent_bridge ]}.

End Reference.

(** ** The listening side of the stream layer: [Accept], [Addr], [Close] *)

Module Listening.
Import LogBridge Transport.

(** [net.Listener] at the interface the stream layer uses. The listener
    works on a state of the network (the inbound streams that wait, whether
    the listener is closed), which [Accept] and [Close] change. *)
Class ListenerOps `{Net : Substrate} : Type := {
  World : Type;
  (** [net.Addr] *)
  NetAddr : Type;
  (** [Listener.Accept] *)
  net_Accept : Listener → World → (Conn + lib_error) * World;
  (** [Listener.Addr] *)
  net_Addr : Listener → NetAddr;
  (** [Listener.Close], nil or an error *)
  net_Close : Listener → World → option lib_error * World
}.

Section WithListener.
Context `{Ops : ListenerOps}.

(** [return sl.l.Accept()]; a method call on a nil interface value
    panics. *)
Definition Accept (sl : streamLayer) (w : World) : outcome (result Conn * World) :=
  match l sl with
  | None => Panic nil_dereference
  | Some lst => let (r, w') := net_Accept lst w in Ok (of_lib r, w')
  end.

(** [return sl.l.Addr()] *)
Definition Addr (sl : streamLayer) : outcome NetAddr :=
  match l sl with
  | None => Panic nil_dereference
  | Some lst => Ok (net_Addr lst)
  end.

(** [return sl.l.Close()] *)
Definition Close (sl : streamLayer) (w : World) : outcome (option error * World) :=
  match l sl with
  | None => Panic nil_dereference
  | Some lst => let (r, w') := net_Close lst w in Ok (from_lib <$> r, w')
  end.

End WithListener.

(** A listener for the sample substrate: the state is the queue of inbound
    connections, or nothing once the listener is closed. *)
Module SampleListener.
Import Transport.Sample.

Definition accept (lst : unit) (w : option (list nat)) : (nat + string) * option (list nat) :=
  match w with
  | Some (c :: waiting) => (inl c, Some waiting)
  | Some [] => (inr "accept would block", w)
  | None => (inr "listener closed", w)
  end.

Definition close (lst : unit) (w : option (list nat)) : option string * option (list nat) :=
  match w with
  | Some _ => (None, None)
  | None => (Some "listener closed", None)
  end.

#[export] Instance sample_ops : @ListenerOps sample_net := {|
  World := option (list nat);
  NetAddr := string;
  net_Accept := accept;
  net_Addr := λ _, "sample-host";
  net_Close := close
|}.

(** The zero value [streamLayer{}]. *)
Definition zero_layer : @streamLayer sample_net := {| host := None; l := None |}.

End SampleListener.

End Listening.

Import LogBridge Reference.

(** ** Strings *)

Lemma string_app_nil_r (s : string) : s +:+ "" = s.
Proof.
  induction s as [|c s IH]; [done|].
  change (String c (s +:+ "") = String c s). by rewrite IH.
Qed.

Lemma string_app_assoc (s1 s2 s3 : string) :
  (s1 +:+ s2) +:+ s3 = s1 +:+ s2 +:+ s3.
Proof.
  induction s1 as [|c s1 IH]; [done|].
  change (String c ((s1 +:+ s2) +:+ s3) = String c (s1 +:+ s2 +:+ s3)).
  by rewrite IH.
Qed.

(** ** The loop of [formatArgs] *)

(** When the key at [i] is not a string the loop skips to [i + 2]. *)
Lemma render_from_skip (args : list iface) (i : nat) (k : iface) (result : string) :
  args !! i = Some k →
  assert_string k = None →
  render_from (drop (S (S i)) args) result = render_from (k :: drop (S i) args) result.
Proof.
  intros Hk Hnot. destruct (args !! S i) as [v|] eqn:E.
  - rewrite (drop_S _ _ _ E). by destruct k.
  - apply lookup_ge_None in E.
    rewrite (drop_ge args (S i)), (drop_ge args (S (S i))) by lia.
    by destruct k.
Qed.

Lemma formatArgs_loop_drop (args : list iface) (i : nat) (result : string) :
  formatArgs_loop args i result = render_from (drop i args) result.
Proof.
  funelim (formatArgs_loop args i result);
    repeat match goal with
    | IH : formatArgs_loop _ _ _ = render_from _ _ |- _ => rewrite IH; clear IH
    | E : ?l !! (?i + 1) = _ |- _ => replace (i + 1) with (S i) in E by lia
    | |- context [drop (?i + 2) _] => replace (i + 2) with (S (S i)) by lia
    | E : ?l !! ?i = None, Hlt : ?i < length ?l |- _ =>
        apply lookup_ge_None in E; lia
    end.
  all: repeat match goal with
    | E : ?l !! ?i = Some _ |- context [drop ?i ?l] => rewrite (drop_S _ _ _ E)
    | E : ?l !! ?i = None |- context [drop ?i ?l] =>
        rewrite (drop_ge l i) by (by apply lookup_ge_None)
    end.
  all: try done.
  all: try (by eapply render_from_skip).
  rewrite drop_ge by lia. done.
Qed.

(** Induction over a list two elements at a time, as the loop walks it. *)
Lemma list_pair_ind {A} (P : list A → Prop) :
  P [] → (∀ x, P [x]) → (∀ x y l, P l → P (x :: y :: l)) → ∀ l, P l.
Proof.
  intros Hnil Hone Hstep.
  assert (∀ l, P l ∧ ∀ x, P (x :: l)) as Hboth.
  { induction l as [|y l [IH1 IH2]]; [by split|].
    split; [apply IH2 | intros x; by apply Hstep]. }
  intros l. apply Hboth.
Qed.

(** With the slice of contextual arguments appended as one element, the
    loop never indexes past the end. *)
Lemma render_from_snoc_slice_total (args extra : list iface) :
  ∀ result, ∃ s, render_from (args ++ [ISlice extra]) result = Ok s.
Proof.
  induction args as [|x|x y rest IH] using list_pair_ind; intros result.
  - by exists result.
  - destruct x; simpl; eauto.
  - destruct x; simpl; eauto.
Qed.

(** An even number of call-site arguments is rendered pair by pair; the
    appended slice sits at a key position and is skipped. *)
Lemma render_from_snoc_slice_even (args extra : list iface) :
  Nat.even (length args) = true →
  ∀ result,
    render_from (args ++ [ISlice extra]) result = Ok (result +:+ spec_fragments args).
Proof.
  induction args as [|x|x y rest IH] using list_pair_ind; intros Heven result.
  - simpl. by rewrite string_app_nil_r.
  - done.
  - specialize (IH Heven).
    destruct x; simpl; rewrite IH; try done.
    by rewrite string_app_assoc.
Qed.

Lemma formatArgs_render_from (log : hcLogToLogger) (args : list iface) :
  formatArgs log args = render_from (args ++ [ISlice (extraArgs log)]) "".
Proof. unfold formatArgs. by rewrite formatArgs_loop_drop. Qed.

Lemma formatArgs_total (log : hcLogToLogger) (args : list iface) :
  ∃ s, formatArgs log args = Ok s.
Proof. rewrite formatArgs_render_from. apply render_from_snoc_slice_total. Qed.

(** The part of the rendering that holds: an even-length argument list is
    rendered as its fragments, whatever the bridge carries. *)
Lemma formatArgs_even_length (log : hcLogToLogger) (args : list iface) :
  Nat.even (length args) = true →
  formatArgs log args = Ok (spec_fragments args).
Proof.
  intros Heven. rewrite formatArgs_render_from.
  by rewrite render_from_snoc_slice_even.
Qed.

Lemma format_total (log : hcLogToLogger) (msg : string) (args : list iface) :
  ∃ text, format log msg args = Ok text.
Proof.
  unfold format. destruct (formatArgs_total log args) as [s ->].
  simpl. eauto.
Qed.

(** What [Log] hands to a levelled method renders to nothing. *)
Lemma formatArgs_wrapped_slice (log : hcLogToLogger) (args : list iface) :
  formatArgs log [ISlice args] = Ok "".
Proof. by rewrite formatArgs_render_from. Qed.

Lemma format_wrapped_slice (log : hcLogToLogger) (msg : string) (args : list iface) :
  format log msg [ISlice args] = Ok (name_prefix log +:+ msg).
Proof.
  unfold format. rewrite formatArgs_wrapped_slice. simpl.
  rewrite string_app_nil_r. unfold name_prefix.
  by destruct (name log).
Qed.

(** [Log] makes one call to the host logger, at the level of the table,
    with the prefixed message as text. *)
Lemma Log_emits (log : hcLogToLogger) (level : Level) (msg : string)
    (args : list iface) (k : sink) :
  Log log level msg args k = Ok (k ++ [(spec_host_level level, name_prefix log +:+ msg)]).
Proof.
  unfold Log, Debug, Info, Warn, Error, spec_host_level.
  rewrite format_wrapped_slice. simpl.
  unfold hclog_Trace, hclog_Debug, hclog_NoLevel, hclog_Info, hclog_Warn, hclog_Error.
  repeat case_bool_decide; subst; simpl; try done;
    repeat case_decide; try done;
    repeat match goal with
    | H : _ ∈ _ :: _ |- _ => apply elem_of_cons in H as [?|H]; [congruence|]
    | H : _ ∈ [] |- _ => by apply elem_of_nil in H
    | H : ¬ _ ∈ _ |- _ => exfalso; apply H; rewrite !elem_of_cons; by auto
    end.
Qed.

(** ** The logging bridge: rendering and dispatch *)

(** C1: the contextual pairs of a bridge derived with [With] are to be
    rendered after the call-site pairs. On the bridge derived from the
    parent with [With("k", "v")], a call with the call-site pair
    [("a", "b")] returns the call-site fragment only, and a call without
    arguments returns the empty text, where the described rendering has
    the contextual fragment too: [formatArgs] appends the slice of
    contextual arguments as a single element, which then sits at a key
    position and is skipped. *)
Theorem formatArgs_omits_contextual_pairs :
  let (l, σ) := With parent_store parent_loc [IString "k"; IString "v"] in
  at_bridge σ l (λ b, formatArgs b [IString "a"; IString "b"]) = Ok " a=b."
  ∧ at_bridge σ l (λ b, mret (spec_formatArgs b [IString "a"; IString "b"]))
    = Ok " a=b. k=v."
  ∧ at_bridge σ l (λ b, formatArgs b []) = Ok ""
  ∧ at_bridge σ l (λ b, mret (spec_formatArgs b [])) = Ok " k=v.".
Proof. vm_compute. done. Qed.

(** C2: for every level, message and call-site argument list, the levelled
    method called by [Log] formats the one-element slice that holds the
    argument slice, which renders to the empty text; the text handed to
    the host logger is the name prefix followed by the message, with no
    fragment of the call-site arguments. *)
Theorem Log_renders_no_call_site_argument
    (log : hcLogToLogger) (level : Level) (msg : string) (args : list iface) (k : sink) :
  formatArgs log [ISlice args] = Ok ""
  ∧ ∃ lvl, Log log level msg args k = Ok (k ++ [(lvl, name_prefix log +:+ msg)]).
Proof.
  split; [apply formatArgs_wrapped_slice|].
  exists (spec_host_level level). apply Log_emits.
Qed.

(** C3: for every level, [Log] makes exactly one call to the host logger,
    at the level the table gives: trace and debug at debug, unset and info
    at info, warn at warn, error at error, every other level at warn. *)
Theorem Log_dispatches_by_level
    (log : hcLogToLogger) (level : Level) (msg : string) (args : list iface) (k : sink) :
  (∃ text, Log log level msg args k = Ok (k ++ [(spec_host_level level, text)]))
  ∧ spec_host_level hclog_Trace = HostDebug
  ∧ spec_host_level hclog_Debug = HostDebug
  ∧ spec_host_level hclog_NoLevel = HostInfo
  ∧ spec_host_level hclog_Info = HostInfo
  ∧ spec_host_level hclog_Warn = HostWarn
  ∧ spec_host_level hclog_Error = HostError
  ∧ (level ∈ [hclog_NoLevel; hclog_Trace; hclog_Debug; hclog_Info; hclog_Warn; hclog_Error]
     ∨ spec_host_level level = HostWarn).
Proof.
  split; [eexists; apply Log_emits|].
  repeat (split; [done|]).
  unfold spec_host_level.
  repeat case_decide; try (by right); left;
    repeat match goal with
    | H : _ ∈ _ :: _ |- _ => apply elem_of_cons in H as [->|H]
    | H : _ ∈ [] |- _ => by apply elem_of_nil in H
    end; subst; rewrite !elem_of_cons; auto 10.
Qed.

(** C6: for every bridge, level and argument list, of even or odd length or
    empty, [formatArgs], the levelled methods and [Log] return normally:
    no index is out of range. After the append the slice has at least one
    element, and its last element is not a string, so a string key is
    always followed by a value. *)
Theorem Log_never_panics
    (log : hcLogToLogger) (level : Level) (msg : string) (args : list iface) (k : sink) :
  (∃ s, formatArgs log args = Ok s)
  ∧ (∃ k', Debug log msg args k = Ok k')
  ∧ (∃ k', Info log msg args k = Ok k')
  ∧ (∃ k', Warn log msg args k = Ok k')
  ∧ (∃ k', Error log msg args k = Ok k')
  ∧ (∃ k', Log log level msg args k = Ok k').
Proof.
  split; [apply formatArgs_total|].
  unfold Debug, Info, Warn, Error.
  destruct (format_total log msg args) as [text ->]. simpl.
  repeat (split; [by eexists|]).
  rewrite Log_emits. by eexists.
Qed.

(** ** The logging bridge: derivation *)

Lemma new_bridge_fresh (b : hcLogToLogger) (σ : store) :
  (new_bridge b σ).1 ∉ dom σ.
Proof. apply is_fresh. Qed.

Lemma new_bridge_lookup (b : hcLogToLogger) (σ : store) :
  (new_bridge b σ).2 !! (new_bridge b σ).1 = Some b.
Proof. apply lookup_insert_eq. Qed.

Lemma new_bridge_frame (b : hcLogToLogger) (σ : store) (l : loc) :
  l ∈ dom σ → (new_bridge b σ).2 !! l = σ !! l.
Proof.
  intros Hl. apply lookup_insert_ne. intros <-.
  by apply (new_bridge_fresh b σ).
Qed.

Lemma new_bridge_fresh_derivation (b : hcLogToLogger) (σ : store) :
  fresh_derivation σ (new_bridge b σ).
Proof.
  split; [apply new_bridge_fresh|].
  split; [rewrite new_bridge_lookup; by eexists|].
  split; [apply dom_insert_L|].
  intros l; apply new_bridge_frame.
Qed.

Lemma new_bridge_dom (b : hcLogToLogger) (σ : store) (l : loc) :
  l ∈ dom σ → l ∈ dom (new_bridge b σ).2.
Proof. intros Hl. unfold new_bridge. simpl. rewrite dom_insert. set_solver. Qed.

(** C9: on a store that holds the receiver, [With], [Named] and
    [ResetNamed] each return a pointer that the store did not hold and
    leave every bridge of the store, the receiver among them, with the
    fields it had. Two bridges derived from one parent with [With(a, b)]
    and then [With(c, d)] are distinct; the first keeps exactly [a, b] as
    its contextual arguments after the second is derived, the second has
    exactly [c, d], and the parent is as it was. *)
Theorem derivations_are_fresh_and_isolated
    (σ : store) (log : loc) (parent : hcLogToLogger)
    (args : list iface) (suffix new_name : string) (a b c d : iface) :
  σ !! log = Some parent →
  fresh_derivation σ (With σ log args)
  ∧ (∃ r, Named σ log suffix = Ok r ∧ fresh_derivation σ r)
  ∧ fresh_derivation σ (ResetNamed σ log new_name)
  ∧ (let (l1, σ1) := With σ log [a; b] in
     let (l2, σ2) := With σ1 log [c; d] in
     l1 ≠ l2
     ∧ σ2 !! l1 = σ1 !! l1
     ∧ extraArgs <$> σ2 !! l1 = Some [a; b]
     ∧ extraArgs <$> σ2 !! l2 = Some [c; d]
     ∧ σ2 !! log = Some parent).
Proof.
  intros Hlive.
  assert (log ∈ dom σ) as Hdom by (apply elem_of_dom; eauto).
  split; [apply new_bridge_fresh_derivation|].
  split.
  { unfold Named. rewrite Hlive. eexists. split; [done|].
    apply new_bridge_fresh_derivation. }
  split; [apply new_bridge_fresh_derivation|].
  unfold With.
  set (b1 := {| extraArgs := [a; b]; name := "" |}).
  set (b2 := {| extraArgs := [c; d]; name := "" |}).
  destruct (new_bridge b1 σ) as [l1 σ1] eqn:E1.
  destruct (new_bridge b2 σ1) as [l2 σ2] eqn:E2.
  pose proof (new_bridge_lookup b1 σ) as Hl1. rewrite E1 in Hl1. simpl in Hl1.
  pose proof (new_bridge_lookup b2 σ1) as Hl2. rewrite E2 in Hl2. simpl in Hl2.
  pose proof (new_bridge_fresh b2 σ1) as Hfresh2. rewrite E2 in Hfresh2. simpl in Hfresh2.
  assert (l1 ∈ dom σ1) as Hl1dom by (apply elem_of_dom; eauto).
  pose proof (new_bridge_frame b2 σ1 l1 Hl1dom) as Hkeep1. rewrite E2 in Hkeep1.
  simpl in Hkeep1.
  pose proof (new_bridge_frame b1 σ log Hdom) as Hp1. rewrite E1 in Hp1. simpl in Hp1.
  assert (log ∈ dom σ1) as Hdom1 by (apply elem_of_dom; rewrite Hp1; eauto).
  pose proof (new_bridge_frame b2 σ1 log Hdom1) as Hp2. rewrite E2 in Hp2. simpl in Hp2.
  repeat split.
  - intros ->. by apply Hfresh2.
  - done.
  - by rewrite Hkeep1, Hl1.
  - by rewrite Hl2.
  - by rewrite Hp2, Hp1.
Qed.

Lemma derivations_are_fresh_and_isolated_witness :
  parent_store !! parent_loc = Some parent_bridge
  ∧ fresh_derivation parent_store (With parent_store parent_loc [IString "a"; IString "b"]).
Proof.
  split; [reflexivity|].
  apply (derivations_are_fresh_and_isolated parent_store parent_loc parent_bridge
           [IString "a"; IString "b"] "net" "raft-net"
           (IString "a") (IString "b") (IString "c") (IString "d")).
  reflexivity.
Defined.

(** C10: each derivation sets one field of the new bridge. The bridge
    returned by [With(args)] has the empty name and exactly [args] as
    contextual arguments, whatever the receiver had accumulated; the
    bridge returned by [Named(suffix)] has no contextual arguments and the
    receiver's name, the separator and the suffix as name; the bridge
    returned by [ResetNamed(name)] has no contextual arguments and exactly
    the given name. *)
Theorem derivations_set_one_field
    (σ : store) (log : loc) (parent : hcLogToLogger)
    (args : list iface) (suffix new_name : string) :
  σ !! log = Some parent →
  (let (l', σ') := With σ log args in
   σ' !! l' = Some {| extraArgs := args; name := "" |})
  ∧ (∃ l' σ', Named σ log suffix = Ok (l', σ')
       ∧ σ' !! l' = Some {| extraArgs := []; name := name parent +:+ ": " +:+ suffix |})
  ∧ (let (l', σ') := ResetNamed σ log new_name in
     σ' !! l' = Some {| extraArgs := []; name := new_name |}).
Proof.
  intros Hlive. unfold With, Named, ResetNamed. rewrite Hlive.
  split; [apply lookup_insert_eq|].
  split; [|apply lookup_insert_eq].
  do 2 eexists. split; [done|].
  rewrite <- string_app_assoc. apply lookup_insert_eq.
Qed.

Lemma derivations_set_one_field_witness :
  parent_store !! parent_loc = Some parent_bridge
  ∧ ∃ l' σ', Named parent_store parent_loc "net" = Ok (l', σ')
      ∧ σ' !! l' = Some {| extraArgs := []; name := "raft: net" |}.
Proof.
  split; [reflexivity|].
  apply (derivations_set_one_field parent_store parent_loc parent_bridge
           [IString "k"; IString "v"] "net" "raft-net").
  reflexivity.
Defined.

(** ** The stream layer, the address provider and the factory *)

Import Transport.

Section TransportProperties.
Context `{Net : Substrate}.

Lemma Dial_nil_host (lst : option Listener) (address : string) (timeout : Z) :
  Dial {| host := None; l := lst |} address timeout = (Fail not_initialized, []).
Proof. reflexivity. Qed.

Lemma Dial_decode_error (hst : Host) (lst : option Listener) (address : string)
    (timeout : Z) (err : lib_error) :
  peer_Decode address = inr err →
  Dial {| host := Some hst; l := lst |} address timeout
  = (Fail (from_lib err), [EvDecode address]).
Proof. intros Hbad. unfold Dial. simpl. by rewrite Hbad. Qed.

(** C4: on a stream layer with a live host, an address that
    [peer.Decode] rejects makes [Dial] return the decoding error, and
    among the calls [Dial] made there is none that opens a stream. *)
Theorem Dial_invalid_address (hst : Host) (lst : option Listener)
    (address : string) (timeout : Z) (err : lib_error) :
  peer_Decode address = inr err →
  (Dial {| host := Some hst; l := lst |} address timeout).1 = Fail (from_lib err)
  ∧ Forall (λ ev, is_network_op ev = false)
      (Dial {| host := Some hst; l := lst |} address timeout).2.
Proof.
  intros Hbad. rewrite (Dial_decode_error _ _ _ _ _ Hbad). simpl.
  split; [done|]. by repeat constructor.
Qed.

(** C5: on a stream layer whose host is nil, [Dial] returns the
    not-initialized error for every address and timeout, having made no
    call at all: neither the decoding of the address nor a stream
    opening. On a stream layer with a live host the address is decoded,
    and an address that [peer.Decode] rejects yields the decoding error,
    which is not the not-initialized error. *)
Theorem Dial_checks_host_first (lst : option Listener) (address : string) (timeout : Z) :
  Dial {| host := None; l := lst |} address timeout = (Fail not_initialized, [])
  ∧ ∀ (hst : Host) (err : lib_error),
      peer_Decode address = inr err →
      Dial {| host := Some hst; l := lst |} address timeout
      = (Fail (from_lib err), [EvDecode address])
      ∧ Fail (A := Conn) (from_lib err) ≠ Fail not_initialized.
Proof.
  split; [apply Dial_nil_host|].
  intros hst err Hbad. split; [by apply Dial_decode_error|].
  unfold not_initialized. congruence.
Qed.

(** C7: [ServerAddr] returns every server identifier unchanged, without
    error; so for a peer identity [p] that decodes from its own text,
    decoding the address returned for that text gives back [p]. *)
Theorem ServerAddr_roundtrip (ap : addrProvider) (p : PeerID) :
  peer_Decode (peer_Encode p) = inl p →
  (∀ id, ServerAddr ap id = Ret id)
  ∧ ∃ address, ServerAddr ap (peer_Encode p) = Ret address
      ∧ peer_Decode address = inl p.
Proof.
  intros Hvalid. split; [done|].
  exists (peer_Encode p). by split.
Qed.

Section FactoryProperties.
Variable NetworkTransport : Type.
Variable raft_NewNetworkTransportWithConfig :
  NetworkTransportConfig → NetworkTransport.

End FactoryProperties.

End TransportProperties.

(** ** The transport properties on the sample substrate *)

Import Transport.Sample.

Lemma Dial_invalid_address_witness :
  peer_Decode "12D3Koo" = inr "failed to parse peer ID"
  ∧ (Dial live_layer "12D3Koo" 2000000000).1 = Fail (from_lib "failed to parse peer ID")
  ∧ Forall (λ ev, is_network_op ev = false) (Dial live_layer "12D3Koo" 2000000000).2.
Proof.
  split; [reflexivity|].
  apply (Dial_invalid_address (Net := sample_net)
           () (Some ()) "12D3Koo" 2000000000 "failed to parse peer ID").
  reflexivity.
Defined.

Lemma Dial_checks_host_first_witness :
  peer_Decode "" = inr "failed to parse peer ID"
  ∧ Dial nil_layer "" 500000000 = (Fail not_initialized, [])
  ∧ Dial {| host := live_host; l := None |} "" 500000000
    = (Fail (from_lib "failed to parse peer ID"), [EvDecode ""]).
Proof.
  split; [reflexivity|].
  destruct (Dial_checks_host_first (Net := sample_net) None "" 500000000)
    as [Hnil Hlive].
  split; [exact Hnil|].
  apply (Hlive () "failed to parse peer ID"). reflexivity.
Defined.

Lemma ServerAddr_roundtrip_witness :
  peer_Decode (peer_Encode 3) = inl 3
  ∧ ∃ address, ServerAddr sample_provider (peer_Encode 3) = Ret address
      ∧ peer_Decode address = inl 3.
Proof.
  split; [reflexivity|].
  apply (ServerAddr_roundtrip (Net := sample_net) sample_provider 3). reflexivity.
Defined.

(** ** More on the rendering of arguments *)

(** An even-length front of the slice is consumed pair by pair before the
    loop reaches what follows it. *)
Lemma render_from_even_front (front rest : list iface) :
  Nat.even (length front) = true →
  ∀ result,
    render_from (front ++ rest) result
    = render_from rest (result +:+ spec_fragments front).
Proof.
  induction front as [|x|x y front IH] using list_pair_ind; intros Heven result.
  - simpl. by rewrite string_app_nil_r.
  - done.
  - specialize (IH Heven).
    destruct x; simpl; rewrite IH; try done.
    by rewrite string_app_assoc.
Qed.

(** X1: for an even number of call-site arguments [formatArgs] returns the
    fragments of the string-keyed pairs, in order, and nothing else:
    whatever contextual arguments the bridge carries, the text is the
    same. *)
Theorem formatArgs_even_ignores_bridge (log log' : hcLogToLogger) (args : list iface) :
  Nat.even (length args) = true →
  formatArgs log args = Ok (spec_fragments args)
  ∧ formatArgs log' args = formatArgs log args.
Proof.
  intros Heven. by rewrite !formatArgs_even_length.
Qed.

Lemma formatArgs_even_ignores_bridge_witness :
  Nat.even (length [IString "term"; IInt 7; IBool true; IString "x"]) = true
  ∧ formatArgs parent_bridge [IString "term"; IInt 7; IBool true; IString "x"]
    = Ok " term=%!s(int=7).".
Proof.
  split; [reflexivity|].
  apply (formatArgs_even_ignores_bridge parent_bridge parent_bridge
           [IString "term"; IInt 7; IBool true; IString "x"]).
  reflexivity.
Defined.

(** X2: for an odd number of call-site arguments the last one has no value of
    its own: the appended slice of contextual arguments is taken as its
    value. If that last argument is a string it is rendered as a key whose
    value is the whole slice; if it is not, it is skipped together with
    the slice. *)
Theorem formatArgs_odd_dangling_key
    (log : hcLogToLogger) (front : list iface) (last : iface) :
  Nat.even (length front) = true →
  formatArgs log (front ++ [last])
  = Ok (spec_fragments front +:+
        match assert_string last with
        | Some key => Sprintf_kv key (ISlice (extraArgs log))
        | None => ""
        end).
Proof.
  intros Heven. rewrite formatArgs_render_from, <- app_assoc.
  rewrite (render_from_even_front front _ Heven). simpl.
  destruct last; simpl; by rewrite ?string_app_nil_r.
Qed.

Lemma formatArgs_odd_dangling_key_witness :
  Nat.even (length [IString "a"; IString "b"]) = true
  ∧ formatArgs parent_bridge ([IString "a"; IString "b"] ++ [IString "peer"])
    = Ok " a=b. peer=[node n1].".
Proof.
  split; [reflexivity|].
  apply (formatArgs_odd_dangling_key parent_bridge [IString "a"; IString "b"]
           (IString "peer")).
  reflexivity.
Defined.

Lemma format_of_rendered (log : hcLogToLogger) (msg : string) (args : list iface)
    (rendered : string) :
  formatArgs log args = Ok rendered →
  format log msg args
  = Ok (name_prefix log +:+ msg +:+
        if decide (rendered = "") then "" else ". Args: " +:+ rendered).
Proof.
  intros Hr. unfold format. rewrite Hr. simpl.
  rewrite string_app_assoc. f_equal.
  assert (name_prefix log
          = if decide (0 < String.length (name log)) then name log +:+ ": " else name log)
    as <-.
  { unfold name_prefix. by destruct (name log). }
  f_equal. f_equal.
  destruct rendered; repeat case_decide; simpl in *; try done; lia.
Qed.

(** X3: [format] always returns, and its text starts with the name prefix and
    the message; the marker [". Args: "] and the rendered arguments follow
    exactly when the rendering is not empty. *)
Theorem format_shape (log : hcLogToLogger) (msg : string) (args : list iface) :
  ∃ rendered,
    formatArgs log args = Ok rendered
    ∧ format log msg args
      = Ok (name_prefix log +:+ msg +:+
            if decide (rendered = "") then "" else ". Args: " +:+ rendered).
Proof.
  destruct (formatArgs_total log args) as [rendered Hr].
  exists rendered. split; [done|]. by apply format_of_rendered.
Qed.

(** X4: each levelled method, called directly, makes one call to the host
    logger and keeps what was emitted before; [Trace] is emitted at the
    host's debug level; the text is the same at every level. *)
Theorem levelled_methods_emit_once
    (log : hcLogToLogger) (msg : string) (args : list iface) (k : sink) :
  ∃ text,
    format log msg args = Ok text
    ∧ Trace log msg args k = Ok (k ++ [(HostDebug, text)])
    ∧ Debug log msg args k = Ok (k ++ [(HostDebug, text)])
    ∧ Info log msg args k = Ok (k ++ [(HostInfo, text)])
    ∧ Warn log msg args k = Ok (k ++ [(HostWarn, text)])
    ∧ Error log msg args k = Ok (k ++ [(HostError, text)]).
Proof.
  destruct (format_total log msg args) as [text Ht]. exists text.
  unfold Trace, Debug, Info, Warn, Error. by rewrite Ht.
Qed.

Lemma format_with_fragments (log : hcLogToLogger) (msg : string) (args : list iface) :
  Nat.even (length args) = true →
  spec_fragments args ≠ "" →
  format log msg args
  = Ok ((name_prefix log +:+ msg) +:+ ". Args: " +:+ spec_fragments args).
Proof.
  intros Heven Hfrag.
  rewrite (format_of_rendered log msg args _ (formatArgs_even_length log args Heven)).
  rewrite decide_False by done. by rewrite string_app_assoc.
Qed.

(** X5: going through [Log] is not the same as calling the levelled
    method. For call-site arguments of even length with at least one
    string-keyed pair, each levelled method called directly emits the name
    prefix, the message, the marker [". Args: "] and the fragments of the
    pairs, while [Log] at the same level emits the name prefix and the
    message only, so the two differ; with no arguments at all the two emit
    the same, at every level. *)
Theorem Log_differs_from_direct_call
    (log : hcLogToLogger) (msg : string) (args : list iface) (k : sink) :
  Nat.even (length args) = true →
  spec_fragments args ≠ "" →
  let bare := name_prefix log +:+ msg in
  let full := name_prefix log +:+ msg +:+ ". Args: " +:+ spec_fragments args in
  bare ≠ full
  ∧ Debug log msg args k = Ok (k ++ [(HostDebug, full)])
  ∧ Log log hclog_Debug msg args k = Ok (k ++ [(HostDebug, bare)])
  ∧ Info log msg args k = Ok (k ++ [(HostInfo, full)])
  ∧ Log log hclog_Info msg args k = Ok (k ++ [(HostInfo, bare)])
  ∧ Warn log msg args k = Ok (k ++ [(HostWarn, full)])
  ∧ Log log hclog_Warn msg args k = Ok (k ++ [(HostWarn, bare)])
  ∧ Error log msg args k = Ok (k ++ [(HostError, full)])
  ∧ Log log hclog_Error msg args k = Ok (k ++ [(HostError, bare)])
  ∧ Log log hclog_Debug msg [] k = Debug log msg [] k
  ∧ Log log hclog_Info msg [] k = Info log msg [] k
  ∧ Log log hclog_Warn msg [] k = Warn log msg [] k
  ∧ Log log hclog_Error msg [] k = Error log msg [] k
  ∧ Debug log msg [] k = Ok (k ++ [(HostDebug, bare)]).
Proof.
  intros Heven Hfrag bare full. subst bare full.
  split.
  { rewrite <- (string_app_nil_r (name_prefix log +:+ msg)) at 1.
    rewrite !string_app_assoc.
    intros Heq. do 2 apply (inj (String.app _)) in Heq. done. }
  rewrite !Log_emits.
  unfold Debug, Info, Warn, Error.
  rewrite (format_with_fragments log msg args Heven Hfrag).
  rewrite (format_of_rendered log msg [] _ (formatArgs_even_length log [] eq_refl)).
  simpl. rewrite !string_app_assoc, !string_app_nil_r.
  by repeat split.
Qed.

Lemma Log_differs_from_direct_call_witness :
  Nat.even (length [IString "a"; IString "b"]) = true
  ∧ spec_fragments [IString "a"; IString "b"] ≠ ""
  ∧ Debug parent_bridge "vote" [IString "a"; IString "b"] []
    = Ok [(HostDebug, "raft: vote. Args:  a=b.")]
  ∧ Log parent_bridge hclog_Debug "vote" [IString "a"; IString "b"] []
    = Ok [(HostDebug, "raft: vote")].
Proof.
  split; [reflexivity|]. split; [done|].
  destruct (Log_differs_from_direct_call parent_bridge "vote"
              [IString "a"; IString "b"] [] eq_refl)
    as (_ & Hdirect & Hlog & _); [done|].
  by split.
Defined.

(** ** More on derived bridges *)

Lemma name_prefix_nonempty (b : hcLogToLogger) (s1 s2 : string) :
  name b = (s1 +:+ ": ") +:+ s2 → name_prefix b = name b +:+ ": ".
Proof.
  intros Hname. unfold name_prefix. rewrite Hname.
  by destruct s1.
Qed.

Lemma Named_live (σ : store) (log : loc) (parent : hcLogToLogger) (suffix : string) :
  σ !! log = Some parent →
  Named σ log suffix
  = Ok (new_bridge {| extraArgs := []; name := (name parent +:+ ": ") +:+ suffix |} σ).
Proof. intros Hlive. unfold Named. by rewrite Hlive. Qed.

Lemma at_new_bridge {A} (b : hcLogToLogger) (σ : store) (m : hcLogToLogger → outcome A) :
  at_bridge (new_bridge b σ).2 (new_bridge b σ).1 m = m b.
Proof. unfold at_bridge. by rewrite new_bridge_lookup. Qed.

(** X6: a bridge derived with [With] has lost the name of its parent, and its
    own contextual arguments are not rendered: whatever the parent, the
    arguments given to [With] and the call-site arguments, [Log] on the
    derived bridge emits the bare message. *)
Theorem Log_on_With_bridge_emits_bare_message
    (σ : store) (log : loc) (args : list iface)
    (level : Level) (msg : string) (call_args : list iface) (k : sink) :
  let (l', σ') := With σ log args in
  at_bridge σ' l' (λ b, Log b level msg call_args k)
  = Ok (k ++ [(spec_host_level level, msg)]).
Proof.
  unfold With.
  pose proof (at_new_bridge {| extraArgs := args; name := "" |} σ
                (λ b, Log b level msg call_args k)) as Hat.
  destruct (new_bridge _ σ) as [l' σ']. simpl in Hat.
  rewrite Hat. by rewrite Log_emits.
Qed.

(** X7: a bridge derived with [Named] prefixes every message with the name of
    its parent, the separator, the suffix and the separator again. The
    parent's name is taken as it is: for a parent without a name the prefix
    starts with the separator. *)
Theorem Log_on_Named_bridge_prefixes_message
    (σ : store) (log : loc) (parent : hcLogToLogger) (suffix : string)
    (level : Level) (msg : string) (call_args : list iface) (k : sink) :
  σ !! log = Some parent →
  ∃ l' σ',
    Named σ log suffix = Ok (l', σ')
    ∧ Name <$> σ' !! l' = Some (name parent +:+ ": " +:+ suffix)
    ∧ at_bridge σ' l' (λ b, Log b level msg call_args k)
      = Ok (k ++ [(spec_host_level level,
                   name parent +:+ ": " +:+ suffix +:+ ": " +:+ msg)]).
Proof.
  intros Hlive. rewrite (Named_live _ _ _ _ Hlive).
  set (b := {| extraArgs := []; name := (name parent +:+ ": ") +:+ suffix |}).
  pose proof (at_new_bridge b σ (λ b, Log b level msg call_args k)) as Hat.
  pose proof (new_bridge_lookup b σ) as Hnew.
  destruct (new_bridge b σ) as [l' σ']. simpl in Hat, Hnew.
  exists l', σ'. split; [done|]. split.
  - rewrite Hnew. simpl. unfold Name. simpl. by rewrite string_app_assoc.
  - rewrite Hat, Log_emits.
    rewrite (name_prefix_nonempty b (name parent) suffix eq_refl). simpl.
    by rewrite !string_app_assoc.
Qed.

Lemma Log_on_Named_bridge_prefixes_message_witness :
  parent_store !! parent_loc = Some parent_bridge
  ∧ ∃ l' σ',
      Named parent_store parent_loc "net" = Ok (l', σ')
      ∧ Name <$> σ' !! l' = Some "raft: net"
      ∧ at_bridge σ' l' (λ b, Log b hclog_Info "accepted" [IString "peer"; IInt 2] [])
        = Ok [(HostInfo, "raft: net: accepted")].
Proof.
  split; [reflexivity|].
  apply (Log_on_Named_bridge_prefixes_message parent_store parent_loc parent_bridge
           "net" hclog_Info "accepted" [IString "peer"; IInt 2] []).
  reflexivity.
Defined.

(** X8: names compose along a chain of derivations: [Named] after [Named]
    appends both suffixes to the parent's name, [Named] after [ResetNamed]
    extends the new name and nothing of the parent's, and [With] after
    [Named] drops the name again. *)
Theorem names_compose_along_derivations
    (σ : store) (log : loc) (parent : hcLogToLogger)
    (s1 s2 new_name : string) (args : list iface) :
  σ !! log = Some parent →
  (∃ l1 σ1 l2 σ2,
     Named σ log s1 = Ok (l1, σ1)
     ∧ Named σ1 l1 s2 = Ok (l2, σ2)
     ∧ Name <$> σ2 !! l2 = Some (name parent +:+ ": " +:+ s1 +:+ ": " +:+ s2))
  ∧ (let (l1, σ1) := ResetNamed σ log new_name in
     ∃ l2 σ2,
       Named σ1 l1 s2 = Ok (l2, σ2)
       ∧ Name <$> σ2 !! l2 = Some (new_name +:+ ": " +:+ s2))
  ∧ (∃ l1 σ1,
       Named σ log s1 = Ok (l1, σ1)
       ∧ let (l2, σ2) := With σ1 l1 args in
         Name <$> σ2 !! l2 = Some "").
Proof.
  intros Hlive. rewrite (Named_live _ _ _ _ Hlive).
  set (b1 := {| extraArgs := []; name := (name parent +:+ ": ") +:+ s1 |}).
  pose proof (new_bridge_lookup b1 σ) as Hb1.
  split; [|split].
  - destruct (new_bridge b1 σ) as [l1 σ1]. simpl in Hb1.
    set (b2 := {| extraArgs := []; name := (name b1 +:+ ": ") +:+ s2 |}).
    pose proof (new_bridge_lookup b2 σ1) as Hb2.
    pose proof (Named_live _ _ _ s2 Hb1) as Hnamed. fold b2 in Hnamed.
    destruct (new_bridge b2 σ1) as [l2 σ2]. simpl in Hb2.
    exists l1, σ1, l2, σ2. repeat split; try done.
    rewrite Hb2. simpl. unfold Name. simpl. by rewrite !string_app_assoc.
  - unfold ResetNamed.
    set (b0 := {| extraArgs := []; name := new_name |}).
    pose proof (new_bridge_lookup b0 σ) as Hb0.
    destruct (new_bridge b0 σ) as [l1 σ1]. simpl in Hb0.
    set (b2 := {| extraArgs := []; name := (name b0 +:+ ": ") +:+ s2 |}).
    pose proof (new_bridge_lookup b2 σ1) as Hb2.
    pose proof (Named_live _ _ _ s2 Hb0) as Hnamed. fold b2 in Hnamed.
    destruct (new_bridge b2 σ1) as [l2 σ2]. simpl in Hb2.
    exists l2, σ2. split; [done|].
    rewrite Hb2. simpl. unfold Name. simpl. by rewrite !string_app_assoc.
  - destruct (new_bridge b1 σ) as [l1 σ1].
    exists l1, σ1. split; [done|]. unfold With.
    set (b2 := {| extraArgs := args; name := "" |}).
    pose proof (new_bridge_lookup b2 σ1) as Hb2.
    destruct (new_bridge b2 σ1) as [l2 σ2]. simpl in Hb2.
    by rewrite Hb2.
Qed.

Lemma names_compose_along_derivations_witness :
  parent_store !! parent_loc = Some parent_bridge
  ∧ ∃ l1 σ1 l2 σ2,
      Named parent_store parent_loc "net" = Ok (l1, σ1)
      ∧ Named σ1 l1 "dial" = Ok (l2, σ2)
      ∧ Name <$> σ2 !! l2 = Some "raft: net: dial".
Proof.
  split; [reflexivity|].
  apply (names_compose_along_derivations parent_store parent_loc parent_bridge
           "net" "dial" "fresh" [IString "k"; IString "v"]).
  reflexivity.
Defined.

(** ** More on the stream layer and the factory *)

Import Listening.

Section DialProperties.
Context `{Net : Substrate}.

Lemma Dial_decoded (hst : Host) (lst : option Listener) (address : string)
    (timeout : Z) (pid : PeerID) :
  peer_Decode address = inl pid →
  Dial {| host := Some hst; l := lst |} address timeout
  = (of_lib (gostream_Dial hst pid RaftProtocol timeout),
     [EvDecode address; EvOpenStream hst pid RaftProtocol timeout; EvCancel]).
Proof. intros Hok. unfold Dial. simpl. by rewrite Hok. Qed.

(** X10: on a live host and a decodable address, [Dial] opens exactly one
    stream, to the decoded peer, under the raft protocol and with the
    caller's timeout, and returns what the substrate answers: the
    connection, or the substrate's error as it is. *)
Theorem Dial_passes_substrate_answer (sl : streamLayer) (hst : Host)
    (address : string) (timeout : Z) (pid : PeerID) :
  host sl = Some hst →
  peer_Decode address = inl pid →
  filter (λ ev, is_network_op ev = true) (Dial sl address timeout).2
  = [EvOpenStream hst pid RaftProtocol timeout]
  ∧ (∀ c, gostream_Dial hst pid RaftProtocol timeout = inl c
          → (Dial sl address timeout).1 = Ret c)
  ∧ (∀ e, gostream_Dial hst pid RaftProtocol timeout = inr e
          → (Dial sl address timeout).1 = Fail (from_lib e)).
Proof.
  intros Hhost Hok. destruct sl as [h0 lst]. simpl in Hhost. subst h0.
  rewrite (Dial_decoded _ _ _ _ _ Hok). simpl.
  split; [done|]. split; intros ? ->; done.
Qed.

(** X11: whatever the stream layer, the address and the timeout, [Dial] opens at
    most one stream (there is no retry); a stream it opens is on the
    layer's own host, to the peer the address decodes to, under the raft
    protocol and with the given timeout, and the context made for the
    attempt is cancelled afterwards. *)
Theorem Dial_opens_at_most_one_stream
    (sl : streamLayer) (address : string) (timeout : Z) :
  length (filter (λ ev, is_network_op ev = true) (Dial sl address timeout).2) ≤ 1
  ∧ ∀ hst pid tag t,
      EvOpenStream hst pid tag t ∈ (Dial sl address timeout).2 →
      host sl = Some hst
      ∧ peer_Decode address = inl pid
      ∧ tag = RaftProtocol
      ∧ t = timeout
      ∧ last (Dial sl address timeout).2 = Some EvCancel.
Proof.
  unfold Dial. destruct sl as [[hst|] lst]; simpl.
  - destruct (peer_Decode address) as [pid|err] eqn:Hdec; simpl.
    + split; [done|]. intros hst' pid' tag t Hin.
      rewrite !elem_of_cons in Hin.
      destruct Hin as [?|[[= <- <- <- <-]|[?|Hnil]]]; try done.
      by apply elem_of_nil in Hnil.
    + split; [lia|]. intros hst' pid' tag t Hin.
      rewrite !elem_of_cons in Hin. destruct Hin as [?|Hnil]; [done|].
      by apply elem_of_nil in Hnil.
  - split; [lia|]. intros hst' pid' tag t Hin. by apply elem_of_nil in Hin.
Qed.

(** X12: resolving and dialling compose: for a peer identity that decodes from
    its own text, the address that [ServerAddr] returns for that text makes
    [Dial], on a live host, open its one stream to that very peer. *)
Theorem resolve_then_Dial_reaches_peer
    (ap : addrProvider) (sl : streamLayer) (hst : Host) (p : PeerID) (timeout : Z) :
  host sl = Some hst →
  peer_Decode (peer_Encode p) = inl p →
  ∃ address,
    ServerAddr ap (peer_Encode p) = Ret address
    ∧ Dial sl address timeout
      = (of_lib (gostream_Dial hst p RaftProtocol timeout),
         [EvDecode address; EvOpenStream hst p RaftProtocol timeout; EvCancel]).
Proof.
  intros Hhost Hvalid. exists (peer_Encode p). split; [done|].
  destruct sl as [h0 lst]. simpl in Hhost. subst h0.
  by apply Dial_decoded.
Qed.

Lemma newStreamLayer_ok (h : option Host) (sl : streamLayer) (evs : list event) :
  newStreamLayer h = Ok (Ret sl, evs) →
  ∃ hst lst, h = Some hst
             ∧ gostream_Listen hst RaftProtocol = inl lst
             ∧ sl = {| host := Some hst; l := Some lst |}
             ∧ evs = [EvListen hst RaftProtocol].
Proof.
  unfold newStreamLayer. destruct h as [hst|]; [|done].
  destruct (gostream_Listen hst RaftProtocol) as [lst|e] eqn:Hlisten; [|done].
  intros [= <- <-]. by exists hst, lst.
Qed.

(** X13: a stream layer that [newStreamLayer] returned for a live host never
    answers [Dial] with the not-initialized error: a failure of [Dial] on
    it is an error of the substrate. *)
Theorem constructed_layer_is_initialized
    (hst : Host) (sl : streamLayer) (evs : list event)
    (address : string) (timeout : Z) :
  newStreamLayer (Some hst) = Ok (Ret sl, evs) →
  (Dial sl address timeout).1 ≠ Fail not_initialized
  ∧ ∀ err, (Dial sl address timeout).1 = Fail err → ∃ e, err = from_lib e.
Proof.
  intros Hnew. apply newStreamLayer_ok in Hnew as (? & lst & [= <-] & _ & -> & _).
  unfold Dial. simpl.
  destruct (peer_Decode address) as [pid|e]; simpl.
  - destruct (gostream_Dial hst pid RaftProtocol timeout) as [c|e]; simpl.
    + split; [done|]. by intros err.
    + split; [done|]. intros err [= <-]. by exists e.
  - split; [done|]. intros err [= <-]. by exists e.
Qed.

Section FactoryEvents.
Variable NetworkTransport : Type.
Variable raft_NewNetworkTransportWithConfig :
  NetworkTransportConfig → NetworkTransport.

(** X15: the transport that the factory builds over a live host is wired for
    use: its logger emits the bare message at the level of the table, its
    provider resolves every identifier to itself, and its stream layer is
    initialized, so that [Dial] on it opens a stream for every decodable
    address. *)
Theorem NewLibp2pTransport_wiring
    (hst : Host) (timeout : Z) (lst : Listener) :
  gostream_Listen hst RaftProtocol = inl lst →
  ∃ cfg evs,
    NewLibp2pTransport NetworkTransport raft_NewNetworkTransportWithConfig
      (Some hst) timeout
    = Ok (Ret (raft_NewNetworkTransportWithConfig cfg), evs)
    ∧ (∀ level msg args k,
         Log (Logger cfg) level msg args k = Ok (k ++ [(spec_host_level level, msg)]))
    ∧ (∀ id, ServerAddr (ServerAddressProvider cfg) id = Ret id)
    ∧ (∀ address pid dial_timeout,
         peer_Decode address = inl pid →
         Dial (Stream cfg) address dial_timeout
         = (of_lib (gostream_Dial hst pid RaftProtocol dial_timeout),
            [EvDecode address; EvOpenStream hst pid RaftProtocol dial_timeout;
             EvCancel])).
Proof.
  intros Hlisten. unfold NewLibp2pTransport, newStreamLayer. rewrite Hlisten.
  simpl. do 2 eexists. split; [reflexivity|]. simpl.
  split; [intros; by rewrite Log_emits|].
  split; [done|].
  intros address pid dial_timeout Hok. by apply Dial_decoded.
Qed.

End FactoryEvents.

End DialProperties.

Section ListenerProperties.
Context `{Ops : ListenerOps}.

(** X16: on a stream layer that [newStreamLayer] returned, [Accept],
    [Addr] and [Close] do not panic and hand over what the listener
    registered for the raft protocol on the given host answers. *)
Theorem constructed_layer_listens
    (h : option Host) (sl : streamLayer) (evs : list event) (w : World) :
  newStreamLayer h = Ok (Ret sl, evs) →
  ∃ hst lst,
    h = Some hst
    ∧ gostream_Listen hst RaftProtocol = inl lst
    ∧ Accept sl w = Ok (of_lib (net_Accept lst w).1, (net_Accept lst w).2)
    ∧ Addr sl = Ok (net_Addr lst)
    ∧ Close sl w = Ok (from_lib <$> (net_Close lst w).1, (net_Close lst w).2).
Proof.
  intros Hnew. apply newStreamLayer_ok in Hnew as (hst & lst & -> & Hlisten & -> & _).
  exists hst, lst. split; [done|]. split; [done|].
  unfold Accept, Close, Addr. simpl.
  destruct (net_Accept lst w), (net_Close lst w). done.
Qed.

End ListenerProperties.

Import Transport.Sample Listening.SampleListener.

Lemma Dial_passes_substrate_answer_witness :
  host live_layer = Some ()
  ∧ peer_Decode "Q" = inl 1
  ∧ filter (λ ev, is_network_op ev = true) (Dial live_layer "Q" 2000000000).2
    = [EvOpenStream () 1 RaftProtocol 2000000000].
Proof.
  split; [reflexivity|]. split; [reflexivity|].
  apply (Dial_passes_substrate_answer (Net := sample_net) live_layer () "Q"
           2000000000 1); reflexivity.
Defined.

Lemma resolve_then_Dial_reaches_peer_witness :
  host live_layer = Some ()
  ∧ peer_Decode (peer_Encode 2) = inl 2
  ∧ ∃ address,
      ServerAddr sample_provider (peer_Encode 2) = Ret address
      ∧ Dial live_layer address 500000000
        = (Fail (from_lib "context deadline exceeded"),
           [EvDecode address; EvOpenStream () 2 RaftProtocol 500000000; EvCancel]).
Proof.
  split; [reflexivity|]. split; [reflexivity|].
  apply (resolve_then_Dial_reaches_peer (Net := sample_net) sample_provider
           live_layer () 2 500000000); reflexivity.
Defined.

Lemma constructed_layer_is_initialized_witness :
  newStreamLayer live_host = Ok (Ret live_layer, [@EvListen sample_net () RaftProtocol])
  ∧ (Dial live_layer "" 1).1 ≠ Fail not_initialized.
Proof.
  split; [reflexivity|].
  apply (constructed_layer_is_initialized (Net := sample_net) () live_layer
           [@EvListen sample_net () RaftProtocol] "" 1).
  reflexivity.
Defined.

Lemma NewLibp2pTransport_wiring_witness :
  gostream_Listen (Substrate := sample_net) () RaftProtocol = inl ()
  ∧ ∃ cfg evs,
      NewLibp2pTransport NetworkTransportConfig id live_host 2000000000
      = Ok (Ret cfg, evs).
Proof.
  split; [reflexivity|].
  destruct (NewLibp2pTransport_wiring (Net := sample_net) NetworkTransportConfig id
              () 2000000000 () eq_refl) as (cfg & evs & Hcfg & _).
  by exists cfg, evs.
Defined.

Lemma constructed_layer_listens_witness :
  newStreamLayer live_host = Ok (Ret live_layer, [@EvListen sample_net () RaftProtocol])
  ∧ Accept live_layer (Some [7; 8]) = Ok (Ret 7, Some [8]).
Proof.
  split; [reflexivity|].
  destruct (constructed_layer_listens (Ops := sample_ops) live_host live_layer
              [@EvListen sample_net () RaftProtocol] (Some [7; 8]) eq_refl)
    as (hst & lst & _ & _ & Haccept & _).
  exact Haccept.
Defined.

Lemma Dial_opens_at_most_one_stream_witness :
  EvOpenStream () 1 RaftProtocol 2000000000 ∈ (Dial live_layer "Q" 2000000000).2
  ∧ peer_Decode "Q" = inl 1
  ∧ last (Dial live_layer "Q" 2000000000).2 = Some EvCancel.
Proof.
  assert (EvOpenStream () 1 RaftProtocol 2000000000
          ∈ (Dial live_layer "Q" 2000000000).2) as Hin.
  { apply list_elem_of_lookup. by exists 1. }
  split; [exact Hin|].
  destruct (Dial_opens_at_most_one_stream (Net := sample_net) live_layer "Q"
              2000000000) as [_ Hopened].
  destruct (Hopened () 1 RaftProtocol 2000000000%Z Hin) as (_ & Hdec & _ & _ & Hlast).
  by split.
Defined.
